(** * libcaf [Tree]: an immutable, key-ordered table of tree records

    Shallow embedding of [src/libcaf/src/tree.h]:

<<
    class Tree {
    public:
        const std::map<std::string, TreeRecord> records;
        explicit Tree(const std::map<std::string, TreeRecord>& records): records(records) {}
        std::map<std::string, TreeRecord>::const_iterator record(const std::string& key) const {
            return records.find(key);
        }
    };
>>

    The class is two lines of code over two standard containers, so the
    development has three layers:

    - [StdString]: [std::string] with the ordering that
      [std::less<std::string>] applies ([basic_string::compare] over
      [char_traits<char>]);
    - [StdMap]: [std::map<std::string, V>] as the key-sorted sequence of its
      nodes, with iterators as positions in that sequence;
    - [Tree], [Tree_ctor] and [record], transcribed from the header, generic
      in the record type ([tree_record.h] is an opaque collaborator). *)

From Stdlib Require Import List String Ascii NArith ZArith Bool Arith Lia.
From Stdlib Require Import Sorted Permutation.
Import ListNotations.

Set Implicit Arguments.

(* ===================================================================== *)
(** * [std::string] and its ordering                                      *)
(* ===================================================================== *)

Module StdString.

Local Open Scope Z_scope.

(** [char_traits<char>::lt]: characters compare as [unsigned char]. *)
Definition char_lt (a b : ascii) : bool :=
  (N_of_ascii a <? N_of_ascii b)%N.

(** [char_traits<char>::compare(s1, s2, n)]: the sign of the first
    difference among the first [n] characters, 0 when there is none. *)
Fixpoint traits_compare (s1 s2 : string) (n : nat) {struct n} : Z :=
  match n with
  | O => 0
  | S n' =>
      match s1, s2 with
      | String a s1', String b s2' =>
          if char_lt a b then -1
          else if char_lt b a then 1
          else traits_compare s1' s2' n'
      | _, _ => 0
      end
  end.

(** [basic_string::compare]: compare the common prefix, then the sizes. *)
Definition compare (s1 s2 : string) : Z :=
  let rlen := Nat.min (String.length s1) (String.length s2) in
  let r := traits_compare s1 s2 rlen in
  if r =? 0
  then Z.of_nat (String.length s1) - Z.of_nat (String.length s2)
  else r.

(** [operator<] on strings, which is what [std::less<std::string>] calls. *)
Definition less (s1 s2 : string) : bool := compare s1 s2 <? 0.

(** The ordering as a relation. *)
Definition lt (s1 s2 : string) : Prop := less s1 s2 = true.

(** Textbook lexicographic order, written by structural recursion: the
    reference against which [less] is checked. *)
Fixpoint lex_lt (s1 s2 : string) : bool :=
  match s1, s2 with
  | _, EmptyString => false
  | EmptyString, String _ _ => true
  | String a s1', String b s2' =>
      if char_lt a b then true
      else if char_lt b a then false
      else lex_lt s1' s2'
  end.

(** ** Characters *)

Lemma char_lt_irrefl a : char_lt a a = false.
Proof. unfold char_lt. apply N.ltb_irrefl. Qed.

Lemma char_lt_trans a b c :
  char_lt a b = true -> char_lt b c = true -> char_lt a c = true.
Proof.
  unfold char_lt. rewrite !N.ltb_lt. intros Hab Hbc.
  now apply N.lt_trans with (N_of_ascii b).
Qed.

Lemma char_lt_asym a b : char_lt a b = true -> char_lt b a = false.
Proof.
  unfold char_lt. rewrite N.ltb_lt, N.ltb_ge. apply N.lt_le_incl.
Qed.

Lemma char_lt_total a b :
  char_lt a b = false -> char_lt b a = false -> a = b.
Proof.
  unfold char_lt. rewrite !N.ltb_ge. intros Hab Hba.
  rewrite <- (ascii_N_embedding a), <- (ascii_N_embedding b).
  f_equal. now apply N.le_antisymm.
Qed.

(** ** [less] unfolds like the lexicographic order *)

Lemma less_empty_r s : less s EmptyString = false.
Proof.
  unfold less, compare. cbn [String.length].
  rewrite Nat.min_0_r. cbn [traits_compare Z.eqb].
  apply Z.ltb_ge. lia.
Qed.

Lemma less_empty_l b t : less EmptyString (String b t) = true.
Proof.
  unfold less, compare. cbn [String.length Nat.min traits_compare Z.eqb].
  apply Z.ltb_lt. lia.
Qed.

Lemma less_cons a s b t :
  less (String a s) (String b t) =
  if char_lt a b then true else if char_lt b a then false else less s t.
Proof.
  unfold less, compare. cbn [String.length Nat.min traits_compare].
  destruct (char_lt a b); [reflexivity|].
  destruct (char_lt b a); [reflexivity|].
  destruct (traits_compare s t _ =? 0); [|reflexivity].
  rewrite !Nat2Z.inj_succ.
  replace (Z.succ (Z.of_nat (String.length s)) - Z.succ (Z.of_nat (String.length t)))
    with (Z.of_nat (String.length s) - Z.of_nat (String.length t)) by lia.
  reflexivity.
Qed.

Lemma less_is_lex s1 : forall s2, less s1 s2 = lex_lt s1 s2.
Proof.
  induction s1 as [|a s1 IH]; intros [|b s2]; cbn [lex_lt].
  - apply less_empty_r.
  - apply less_empty_l.
  - apply less_empty_r.
  - rewrite less_cons, IH. reflexivity.
Qed.

(** ** [lt] is a strict total order *)

Lemma less_irrefl s : less s s = false.
Proof.
  induction s as [|a s IH]; [apply less_empty_r|].
  now rewrite less_cons, char_lt_irrefl.
Qed.

Lemma less_trans s1 : forall s2 s3,
  less s1 s2 = true -> less s2 s3 = true -> less s1 s3 = true.
Proof.
  induction s1 as [|a s1 IH]; intros [|b s2] [|c s3];
    rewrite ?less_empty_r, ?less_empty_l; try discriminate; try reflexivity.
  rewrite !less_cons.
  destruct (char_lt a b) eqn:Hab.
  - intros _.
    destruct (char_lt b c) eqn:Hbc.
    + intros _. now rewrite (char_lt_trans _ _ _ Hab Hbc).
    + destruct (char_lt c b) eqn:Hcb; [discriminate|].
      rewrite (char_lt_total _ _ Hbc Hcb) in Hab. now rewrite Hab.
  - destruct (char_lt b a) eqn:Hba; [discriminate|].
    rewrite (char_lt_total _ _ Hab Hba). clear Hab Hba.
    destruct (char_lt b c); [reflexivity|].
    destruct (char_lt c b); [discriminate|].
    apply IH.
Qed.

Lemma less_total s1 : forall s2,
  less s1 s2 = false -> less s2 s1 = false -> s1 = s2.
Proof.
  induction s1 as [|a s1 IH]; intros [|b s2];
    rewrite ?less_empty_r, ?less_empty_l; try discriminate; try reflexivity.
  rewrite !less_cons.
  destruct (char_lt a b) eqn:Hab; [discriminate|].
  destruct (char_lt b a) eqn:Hba; [discriminate|].
  intros H1 H2. f_equal; [now apply char_lt_total | now apply IH].
Qed.

Lemma less_asym s1 s2 : less s1 s2 = true -> less s2 s1 = false.
Proof.
  intros H. destruct (less s2 s1) eqn:E; [|reflexivity].
  pose proof (less_trans _ _ _ H E) as Hc.
  now rewrite less_irrefl in Hc.
Qed.

Lemma lt_irrefl s : ~ lt s s.
Proof. unfold lt. now rewrite less_irrefl. Qed.

Lemma lt_trans s1 s2 s3 : lt s1 s2 -> lt s2 s3 -> lt s1 s3.
Proof. apply less_trans. Qed.

End StdString.

(* ===================================================================== *)
(** * [std::map<std::string, V>]                                          *)
(* ===================================================================== *)

(** An ordered map is observed only through its sequence of nodes in key
    order (what [begin()] .. [end()] walks), so that sequence is the model:
    a list of [(key, value)] pairs whose keys increase strictly under
    [std::less<std::string>].  An iterator is a position in the sequence,
    [end()] being the position one past the last node.  The balancing of the
    underlying search tree is not observable and is not modelled. *)

Module StdMap.

Import StdString.

Section WithMapped.

Variable V : Type.

(** [value_type] is [pair<const key_type, mapped_type>]. *)
Definition value_type : Type := (string * V)%type.

Definition keys (l : list value_type) : list string := List.map fst l.

(** Adjacent keys increase strictly. *)
Fixpoint sortedb (ks : list string) : bool :=
  match ks with
  | [] => true
  | k :: rest =>
      match rest with
      | [] => true
      | k' :: _ => less k k' && sortedb rest
      end
  end.

(** [lower_bound]: the first position whose key is not less than [k]. *)
Fixpoint lower_bound_nodes (l : list value_type) (k : string) : nat :=
  match l with
  | [] => 0
  | (k', _) :: l' => if less k' k then S (lower_bound_nodes l' k) else 0
  end.

(** [find], the way the tree behind [std::map] does it:
    [j = lower_bound(k); return (j == end() || comp(k, key(j))) ? end() : j]. *)
Definition find_nodes (l : list value_type) (k : string) : nat :=
  let j := lower_bound_nodes l k in
  match nth_error l j with
  | None => List.length l
  | Some (k', _) => if less k k' then List.length l else j
  end.

(** [insert(value_type)]: a node with an equivalent key blocks the
    insertion; otherwise the node goes to its place in key order. *)
Fixpoint insert_nodes (k : string) (v : V) (l : list value_type)
  : list value_type :=
  match l with
  | [] => [(k, v)]
  | (k', v') :: l' =>
      if less k k' then (k, v) :: l
      else if less k' k then (k', v') :: insert_nodes k v l'
      else l
  end.

(** ** The node sequence *)

Lemma keys_cons k (v : V) l : keys ((k, v) :: l) = k :: keys l.
Proof. reflexivity. Qed.

Lemma sortedb_cons k k' ks :
  sortedb (k :: k' :: ks) = less k k' && sortedb (k' :: ks).
Proof. reflexivity. Qed.

Lemma sortedb_tail k ks : sortedb (k :: ks) = true -> sortedb ks = true.
Proof.
  destruct ks as [|k' ks]; [reflexivity|].
  cbn [sortedb]. intros H. now apply andb_true_iff in H.
Qed.

Lemma sortedb_Sorted ks : sortedb ks = true -> Sorted lt ks.
Proof.
  induction ks as [|k ks IH]; intros H; [constructor|].
  constructor.
  - apply IH. now apply sortedb_tail with k.
  - destruct ks as [|k' ks]; constructor.
    cbn [sortedb] in H. now apply andb_true_iff in H.
Qed.

Lemma sortedb_StronglySorted ks : sortedb ks = true -> StronglySorted lt ks.
Proof.
  intros H. apply Sorted_StronglySorted.
  - intros a b c. apply lt_trans.
  - now apply sortedb_Sorted.
Qed.

Lemma sortedb_head_lt k ks x :
  sortedb (k :: ks) = true -> In x ks -> lt k x.
Proof.
  intros H Hin. apply sortedb_StronglySorted in H.
  apply StronglySorted_inv in H. destruct H as [_ Hall].
  rewrite Forall_forall in Hall. now apply Hall.
Qed.

Lemma StronglySorted_NoDup ks : StronglySorted lt ks -> NoDup ks.
Proof.
  induction 1 as [|k ks Hs IH Hall]; constructor; [|exact IH].
  intros Hin. rewrite Forall_forall in Hall.
  exact (lt_irrefl (Hall _ Hin)).
Qed.

(** Two strictly increasing sequences with the same members are equal. *)
Lemma StronglySorted_ext ks1 : forall ks2,
  StronglySorted lt ks1 -> StronglySorted lt ks2 ->
  (forall x, In x ks1 <-> In x ks2) -> ks1 = ks2.
Proof.
  induction ks1 as [|a ks1 IH]; intros [|b ks2] H1 H2 Hmem.
  - reflexivity.
  - exfalso. apply (proj2 (Hmem b)). now left.
  - exfalso. apply (proj1 (Hmem a)). now left.
  - apply StronglySorted_inv in H1. destruct H1 as [H1 Ha].
    apply StronglySorted_inv in H2. destruct H2 as [H2 Hb].
    rewrite Forall_forall in Ha, Hb.
    assert (Hab : a = b).
    { destruct (proj1 (Hmem a) (or_introl eq_refl)) as [E|Hin]; [now symmetry|].
      destruct (proj2 (Hmem b) (or_introl eq_refl)) as [E|Hin']; [exact E|].
      exfalso. apply (@lt_irrefl a).
      apply lt_trans with b; [now apply Ha | now apply Hb]. }
    subst b. f_equal. apply IH; trivial.
    intros x. split; intros Hx.
    + destruct (proj1 (Hmem x) (or_intror Hx)) as [E|Hin]; [|exact Hin].
      subst x. exfalso. exact (lt_irrefl (Ha _ Hx)).
    + destruct (proj2 (Hmem x) (or_intror Hx)) as [E|Hin]; [|exact Hin].
      subst x. exfalso. exact (lt_irrefl (Hb _ Hx)).
Qed.

(** ** [lower_bound] and [find] on the node sequence *)

Lemma lower_bound_nodes_le l k : lower_bound_nodes l k <= List.length l.
Proof.
  induction l as [|[k' v'] l IH]; cbn [lower_bound_nodes List.length]; [lia|].
  destruct (less k' k); lia.
Qed.

Lemma lower_bound_nodes_not_less l k k' v' :
  nth_error l (lower_bound_nodes l k) = Some (k', v') -> less k' k = false.
Proof.
  induction l as [|[k1 v1] l IH]; cbn [lower_bound_nodes].
  - discriminate.
  - destruct (less k1 k) eqn:E; cbn [nth_error].
    + exact IH.
    + intros H. injection H as -> _. exact E.
Qed.

Lemma lower_bound_nodes_hit l k v :
  sortedb (keys l) = true -> In (k, v) l ->
  nth_error l (lower_bound_nodes l k) = Some (k, v).
Proof.
  induction l as [|[k1 v1] l IH]; intros Hs Hin; [destruct Hin|].
  cbn [lower_bound_nodes]. destruct Hin as [E|Hin].
  - injection E as -> ->. now rewrite less_irrefl.
  - assert (Hlt : lt k1 k).
    { apply sortedb_head_lt with (keys l); [exact Hs|].
      change k with (fst (k, v)). now apply in_map. }
    unfold lt in Hlt. rewrite Hlt. cbn [nth_error].
    apply IH; [|exact Hin]. now apply sortedb_tail with k1.
Qed.

(** A hit of [find] addresses a node whose key is the one asked for. *)
Lemma find_nodes_key l k :
  find_nodes l k < List.length l ->
  exists v, nth_error l (find_nodes l k) = Some (k, v).
Proof.
  unfold find_nodes.
  destruct (nth_error l (lower_bound_nodes l k)) as [[k' v']|] eqn:E; [|lia].
  destruct (less k k') eqn:Hk; [lia|]. intros _.
  pose proof (lower_bound_nodes_not_less _ _ E) as Hk'.
  pose proof (less_total _ _ Hk Hk') as Ek. subst k'. now exists v'.
Qed.

Lemma find_nodes_le l k : find_nodes l k <= List.length l.
Proof.
  unfold find_nodes.
  destruct (nth_error l (lower_bound_nodes l k)) as [[k' v']|] eqn:E; [|lia].
  destruct (less k k'); [lia|]. apply lower_bound_nodes_le.
Qed.

Lemma find_nodes_present l k v :
  sortedb (keys l) = true -> In (k, v) l ->
  nth_error l (find_nodes l k) = Some (k, v).
Proof.
  intros Hs Hin. pose proof (lower_bound_nodes_hit _ _ _ Hs Hin) as E.
  unfold find_nodes. rewrite E, less_irrefl. exact E.
Qed.

Lemma find_nodes_absent l k :
  ~ In k (keys l) -> find_nodes l k = List.length l.
Proof.
  intros Hnot. pose proof (find_nodes_le l k) as Hle.
  destruct (Nat.eq_dec (find_nodes l k) (List.length l)) as [E|Hne]; [exact E|].
  exfalso. destruct (@find_nodes_key l k) as [v Hv]; [lia|].
  apply Hnot. apply nth_error_In in Hv.
  change k with (fst (k, v)). now apply in_map.
Qed.

(** ** [insert] keeps the keys increasing and adds at most the new key *)

Lemma insert_nodes_head k v l :
  match insert_nodes k v l with
  | [] => False
  | (k0, _) :: _ =>
      k0 = k \/ exists v1 l', l = (k0, v1) :: l' /\ less k0 k = true
  end.
Proof.
  destruct l as [|[k1 v1] l']; cbn [insert_nodes]; [now left|].
  destruct (less k k1) eqn:E1; [now left|].
  destruct (less k1 k) eqn:E2.
  - right. now exists v1, l'.
  - left. symmetry. now apply less_total.
Qed.

Lemma insert_nodes_sorted k v l :
  sortedb (keys l) = true -> sortedb (keys (insert_nodes k v l)) = true.
Proof.
  induction l as [|[k1 v1] l IH]; intros Hs; [reflexivity|].
  cbn [insert_nodes]. rewrite keys_cons in Hs.
  destruct (less k k1) eqn:E1.
  - rewrite !keys_cons, sortedb_cons, E1. exact Hs.
  - destruct (less k1 k) eqn:E2; [|now rewrite keys_cons].
    specialize (IH (sortedb_tail _ _ Hs)).
    pose proof (insert_nodes_head k v l) as Hh.
    rewrite keys_cons.
    destruct (insert_nodes k v l) as [|[k0 v0] rest]; [destruct Hh|].
    rewrite keys_cons in IH |- *. rewrite sortedb_cons, IH, andb_true_r.
    destruct Hh as [->|(v' & l' & -> & _)]; [exact E2|].
    rewrite keys_cons, sortedb_cons in Hs. now apply andb_true_iff in Hs.
Qed.

Lemma insert_nodes_keys k v l x :
  In x (keys (insert_nodes k v l)) <-> x = k \/ In x (keys l).
Proof.
  induction l as [|[k1 v1] l IH]; cbn [insert_nodes].
  - cbn. intuition.
  - destruct (less k k1) eqn:E1; [cbn; intuition|].
    destruct (less k1 k) eqn:E2.
    + cbn [keys List.map fst In]. fold (keys (insert_nodes k v l)) (keys l).
      rewrite IH. intuition.
    + rewrite (less_total _ _ E1 E2). cbn. intuition.
Qed.

Lemma insert_nodes_existing k v l :
  In k (keys l) -> sortedb (keys l) = true -> insert_nodes k v l = l.
Proof.
  induction l as [|[k1 v1] l IH]; intros Hin Hs; [destruct Hin|].
  cbn [insert_nodes]. destruct Hin as [E|Hin].
  - cbn [fst] in E. subst k1. now rewrite less_irrefl.
  - assert (Hlt : lt k1 k) by (apply sortedb_head_lt with (keys l); assumption).
    unfold lt in Hlt. rewrite (less_asym _ _ Hlt), Hlt.
    f_equal. apply IH; [exact Hin|]. now apply sortedb_tail with k1.
Qed.

(** ** The container *)

(** A map is a node sequence together with the invariant the container
    maintains: its keys increase strictly. *)
Record map : Type := Build_map {
  nodes : list value_type;
  nodes_sorted : sortedb (keys nodes) = true
}.

(** [const_iterator]: a position in the node sequence. *)
Definition const_iterator : Type := nat.

(** The default-constructed map. *)
Definition empty : map := {| nodes := []; nodes_sorted := eq_refl |}.

Definition size (m : map) : nat := List.length (nodes m).

Definition cbegin (m : map) : const_iterator := 0.

(** The past-the-end iterator, which is what [find] returns for a miss. *)
Definition cend (m : map) : const_iterator := size m.

(** [++it] *)
Definition next (it : const_iterator) : const_iterator := S it.

(** [operator*]: the node at the position; there is none at [cend] or beyond,
    where C++ leaves the dereference undefined. *)
Definition deref (m : map) (it : const_iterator) : option value_type :=
  nth_error (nodes m) it.

Definition lower_bound (m : map) (k : string) : const_iterator :=
  lower_bound_nodes (nodes m) k.

Definition find (m : map) (k : string) : const_iterator :=
  find_nodes (nodes m) k.

Definition insert (m : map) (k : string) (v : V) : map :=
  {| nodes := insert_nodes k v (nodes m);
     nodes_sorted := insert_nodes_sorted k v (nodes m) (nodes_sorted m) |}.

(** The initializer-list (or range) constructor: the bindings are inserted
    one by one, in the order supplied. *)
Definition of_list (l : list value_type) : map :=
  fold_left (fun m p => insert m (fst p) (snd p)) l empty.

(** The loop from [cbegin()] while [it != cend()], stepping with [++it] and
    dereferencing at each step: the nodes visited, in order.  [fuel] bounds
    the number of steps. *)
Fixpoint walk (m : map) (fuel : nat) (it : const_iterator) : list value_type :=
  match fuel with
  | O => []
  | S fuel' =>
      if it =? cend m then []
      else match deref m it with
           | None => []
           | Some p => p :: walk m fuel' (next it)
           end
  end.

Definition to_list (m : map) : list value_type := walk m (size m) (cbegin m).

(** [k] is bound to [v] in [m]. *)
Definition bound (m : map) (k : string) (v : V) : Prop := In (k, v) (nodes m).

(** [m] has a binding for [k]. *)
Definition contains (m : map) (k : string) : Prop := In k (keys (nodes m)).

(** ** Iteration visits exactly the node sequence *)

Lemma skipn_nth_error (A : Type) (l : list A) : forall i x,
  nth_error l i = Some x -> skipn i l = x :: skipn (S i) l.
Proof.
  induction l as [|a l IH]; intros [|i] x H; try discriminate.
  - cbn in H. now injection H as ->.
  - cbn [nth_error] in H. cbn [skipn]. now apply IH.
Qed.

Lemma walk_spec m fuel : forall it,
  walk m fuel it = firstn fuel (skipn it (nodes m)).
Proof.
  induction fuel as [|fuel IH]; intros it; [reflexivity|].
  cbn [walk]. unfold cend, size, deref, next.
  destruct (Nat.eqb_spec it (List.length (nodes m))) as [->|Hne].
  - now rewrite skipn_all.
  - destruct (nth_error (nodes m) it) as [p|] eqn:E.
    + rewrite (skipn_nth_error _ _ E). cbn [firstn]. now rewrite IH.
    + apply nth_error_None in E. now rewrite skipn_all2.
Qed.

Lemma to_list_nodes m : to_list m = nodes m.
Proof.
  unfold to_list, cbegin, size. rewrite walk_spec. cbn [skipn].
  apply firstn_all.
Qed.

(** ** Keys of a map *)

Lemma contains_bound m k : contains m k <-> exists v, bound m k v.
Proof.
  unfold contains, bound, keys. rewrite in_map_iff. split.
  - intros ([k' v] & E & Hin). cbn [fst] in E. subst k'. now exists v.
  - intros (v & Hin). now exists (k, v).
Qed.

Lemma keys_StronglySorted m : StronglySorted lt (keys (nodes m)).
Proof. apply sortedb_StronglySorted, nodes_sorted. Qed.

Lemma keys_NoDup m : NoDup (keys (nodes m)).
Proof. apply StronglySorted_NoDup, keys_StronglySorted. Qed.

(** A key is bound to at most one value. *)
Lemma bound_functional m k v1 v2 : bound m k v1 -> bound m k v2 -> v1 = v2.
Proof.
  unfold bound. intros H1 H2.
  pose proof (find_nodes_present _ _ _ (nodes_sorted m) H1) as E1.
  pose proof (find_nodes_present _ _ _ (nodes_sorted m) H2) as E2.
  rewrite E1 in E2. now injection E2.
Qed.

(** ** [find] *)

Lemma find_bound m k v : bound m k v -> deref m (find m k) = Some (k, v).
Proof. apply find_nodes_present, nodes_sorted. Qed.

Lemma find_not_contains m k : ~ contains m k -> find m k = cend m.
Proof. apply find_nodes_absent. Qed.

Lemma find_le m k : find m k <= cend m.
Proof. apply find_nodes_le. Qed.

Lemma find_hit m k :
  find m k <> cend m -> exists v, deref m (find m k) = Some (k, v).
Proof.
  intros Hne. apply find_nodes_key.
  pose proof (find_le m k). unfold find, cend, size in *. lia.
Qed.

Lemma deref_cend m : deref m (cend m) = None.
Proof. unfold deref, cend, size. apply nth_error_None. lia. Qed.

Lemma deref_bound m it k v : deref m it = Some (k, v) -> bound m k v.
Proof. unfold deref, bound. apply nth_error_In. Qed.

Lemma find_cend_iff m k : find m k = cend m <-> ~ contains m k.
Proof.
  split; [|apply find_not_contains].
  intros E Hc. apply contains_bound in Hc. destruct Hc as [v Hv].
  apply find_bound in Hv. rewrite E, deref_cend in Hv. discriminate.
Qed.

(** ** [of_list] *)

Lemma of_list_keys_from l : forall m x,
  contains (fold_left (fun m p => insert m (fst p) (snd p)) l m) x <->
  contains m x \/ In x (keys l).
Proof.
  induction l as [|[k v] l IH]; intros m x; cbn [fold_left].
  - cbn. intuition.
  - rewrite IH. unfold contains at 1. cbn [insert nodes fst snd].
    rewrite insert_nodes_keys, keys_cons. unfold contains. cbn [In].
    intuition.
Qed.

Lemma of_list_contains l x : contains (of_list l) x <-> In x (keys l).
Proof.
  unfold of_list. rewrite of_list_keys_from. unfold contains. cbn. intuition.
Qed.

End WithMapped.

Arguments empty : clear implicits.

End StdMap.

(* ===================================================================== *)
(** * [class Tree]                                                        *)
(* ===================================================================== *)

Import StdMap.

Section TreeClass.

(** [TreeRecord] comes from [tree_record.h]; the class only stores and
    copies it, so it is a parameter here. *)
Variable TreeRecord : Type.

(** [const std::map<std::string, TreeRecord> records;] is the only member. *)
Record Tree : Type := Build_Tree {
  records : map TreeRecord
}.

(** [explicit Tree(const std::map<std::string, TreeRecord>& records): records(records) {}]

    The member initialiser copy-constructs the member from the argument; the
    copy of a map holds the same bindings as the map copied. *)
Definition Tree_ctor (records0 : map TreeRecord) : Tree :=
  {| records := records0 |}.

(** [const_iterator record(const std::string& key) const { return records.find(key); }] *)
Definition record (t : Tree) (key : string) : const_iterator :=
  find (records t) key.

(** A call of [record] on an instance, as a state transformer: the instance
    after the call and the value returned.  The member function is [const]
    and its body assigns nothing. *)
Definition call_record (t : Tree) (key : string) : Tree * const_iterator :=
  (t, record t key).

(** A sequence of calls on the same instance, each made on the instance the
    previous one left. *)
Fixpoint call_records (t : Tree) (ks : list string)
  : Tree * list const_iterator :=
  match ks with
  | [] => (t, [])
  | k :: ks' =>
      let (t1, it) := call_record t k in
      let (t2, its) := call_records t1 ks' in
      (t2, it :: its)
  end.

(** The keys met when iterating over [t.records]. *)
Definition iteration_keys (t : Tree) : list string :=
  keys (to_list (records t)).

(** ** Facts shared by the properties below *)

Lemma call_records_spec ks : forall t,
  call_records t ks = (t, List.map (record t) ks).
Proof.
  induction ks as [|k ks IH]; intros t; [reflexivity|].
  cbn [call_records call_record List.map]. now rewrite IH.
Qed.

Lemma iteration_keys_nodes t : iteration_keys t = keys (nodes (records t)).
Proof. unfold iteration_keys. now rewrite to_list_nodes. Qed.

Lemma lex_lt_StronglySorted ks :
  StronglySorted StdString.lt ks ->
  StronglySorted (fun a b => StdString.lex_lt a b = true) ks.
Proof.
  induction 1 as [|k ks Hs IH Hall]; constructor; [exact IH|].
  rewrite Forall_forall in Hall |- *. intros x Hx.
  rewrite <- StdString.less_is_lex. now apply Hall.
Qed.

Lemma record_outcome t k :
  (record t k = cend (records t) /\ ~ contains (records t) k /\
   deref (records t) (record t k) = None)
  \/
  (exists r, record t k < cend (records t) /\ bound (records t) k r /\
             deref (records t) (record t k) = Some (k, r)).
Proof.
  unfold record.
  destruct (Nat.eq_dec (find (records t) k) (cend (records t))) as [E|Hne].
  - left. split; [exact E|]. split; [now apply find_cend_iff|].
    rewrite E. apply deref_cend.
  - right. destruct (find_hit _ _ Hne) as [r Hr]. exists r.
    pose proof (find_le (records t) k).
    split; [lia|]. split; [now apply deref_bound with (find (records t) k)|exact Hr].
Qed.

Local Open Scope string_scope.

(** ** Lookup *)

(** C1. For every map [m] given to the constructor and every key [k]: when
    [k] is bound to [r] in [m], [record k] on the constructed instance is an
    iterator that dereferences to the binding [(k, r)]; when [k] is not
    bound in [m], [record k] is the end iterator, dereferences to nothing,
    and the bindings of the instance are still those of [m] (no record has
    been made up and stored). *)
Theorem record_lookup_correct (m : map TreeRecord) (k : string) :
  (forall r, bound m k r ->
     deref (records (Tree_ctor m)) (record (Tree_ctor m) k) = Some (k, r)) /\
  (~ contains m k ->
     record (Tree_ctor m) k = cend (records (Tree_ctor m)) /\
     deref (records (Tree_ctor m)) (record (Tree_ctor m) k) = None /\
     to_list (records (fst (call_record (Tree_ctor m) k))) = to_list m).
Proof.
  split.
  - intros r Hr. unfold record. cbn [records Tree_ctor]. now apply find_bound.
  - intros Hnot. unfold record. cbn [records Tree_ctor call_record fst].
    rewrite (find_not_contains m k Hnot). split; [reflexivity|].
    split; [apply deref_cend | reflexivity].
Qed.

(** C7. On an instance constructed from the empty map, [record k] is the
    end iterator for every string [k], and it dereferences to nothing. *)
Theorem record_on_empty (k : string) :
  record (Tree_ctor (empty TreeRecord)) k
    = cend (records (Tree_ctor (empty TreeRecord))) /\
  deref (records (Tree_ctor (empty TreeRecord)))
        (record (Tree_ctor (empty TreeRecord)) k) = None.
Proof. split; reflexivity. Qed.

(** C9. [t.record(k)] is [t.records.find(k)]: the same iterator, which
    dereferences through [t.records] to the same node, and when it is not
    the end iterator it is the position, in the node sequence stored in
    [t.records], of the node with key [k]. *)
Theorem record_is_find_on_records (t : Tree) (k : string) :
  record t k = find (records t) k /\
  deref (records t) (record t k) = deref (records t) (find (records t) k) /\
  (record t k = cend (records t) \/
   exists r, nth_error (nodes (records t)) (record t k) = Some (k, r) /\
             nth_error (to_list (records t)) (find (records t) k) = Some (k, r)).
Proof.
  split; [reflexivity|]. split; [reflexivity|].
  destruct (record_outcome t k) as [(E & _)|(r & _ & _ & Hr)]; [now left|].
  right. exists r. rewrite to_list_nodes. split; exact Hr.
Qed.

(** C10. [t.record(k)] is defined for every instance and every string: it is
    a position no greater than the end iterator; it is the end iterator
    exactly when [k] has no binding in [t.records]; otherwise it addresses
    a node of [t.records] whose key is [k]; it can be dereferenced exactly
    when [k] has a binding.  For the empty string it is either the end
    iterator or the first position. *)
Theorem record_iterator_valid (t : Tree) (k : string) :
  record t k <= cend (records t) /\
  (record t k = cend (records t) <-> ~ contains (records t) k) /\
  (record t k = cend (records t) \/
   exists r, deref (records t) (record t k) = Some (k, r) /\
             In (k, r) (nodes (records t))) /\
  (deref (records t) (record t k) <> None <-> contains (records t) k) /\
  (record t "" = cend (records t) \/ record t "" = cbegin (records t)).
Proof.
  split; [apply find_le|]. split; [apply find_cend_iff|]. split; [|split].
  - destruct (record_outcome t k) as [(E & _)|(r & _ & Hb & Hr)]; [now left|].
    right. now exists r.
  - destruct (record_outcome t k) as [(_ & Hn & E)|(r & _ & Hb & Hr)].
    + rewrite E. split; [congruence | intros Hc; now elim Hn].
    + rewrite Hr. split; [|discriminate].
      intros _. apply contains_bound. now exists r.
  - unfold record, find, find_nodes, cend, cbegin, size.
    destruct (nodes (records t)) as [|[k1 v1] l]; [now left|].
    cbn [lower_bound_nodes]. rewrite StdString.less_empty_r. cbn [nth_error].
    destruct (StdString.less "" k1); [now left | now right].
Qed.

(** C5. A call of [record] returns, for any instance and any string, and its
    result is one of two: the end iterator, exactly when the key has no
    binding, or an iterator that dereferences to the binding of the key.
    Construction returns an instance for every map. *)
Theorem absence_is_returned (t : Tree) (k : string) :
  (exists it, call_record t k = (t, it) /\ it <= cend (records t)) /\
  (record t k = cend (records t) <-> ~ contains (records t) k) /\
  (record t k <> cend (records t) <->
     exists r, bound (records t) k r /\
               deref (records t) (record t k) = Some (k, r)) /\
  (forall m : map TreeRecord, exists t', Tree_ctor m = t' /\ records t' = m).
Proof.
  split; [exists (record t k); split; [reflexivity | apply find_le]|].
  split; [apply find_cend_iff|]. split.
  - destruct (record_outcome t k) as [(E & _ & Hd)|(r & Hlt & Hb & Hr)].
    + split; [congruence|]. intros (r & _ & Hr). congruence.
    + split; [intros _; now exists r | intros _; lia].
  - intros m. now exists (Tree_ctor m).
Qed.

(** ** Immutability *)

(** C4. Any sequence of [record] calls leaves the instance as it was: the
    same instance comes back, iteration over its bindings is unchanged, the
    results are those of the calls made on the instance as constructed, and
    a further call with any key returns what it would have returned at the
    start. *)
Theorem record_does_not_mutate (t : Tree) (ks : list string) :
  fst (call_records t ks) = t /\
  to_list (records (fst (call_records t ks))) = to_list (records t) /\
  snd (call_records t ks) = List.map (record t) ks /\
  (forall k, snd (call_record (fst (call_records t ks)) k) = record t k).
Proof.
  rewrite call_records_spec. cbn [fst snd call_record]. repeat split.
Qed.

(** ** Construction *)

(** C6. Construction returns an instance for every map, and the member
    [records] of that instance is the map supplied: the same bindings in the
    same order, none added, dropped or altered. *)
Theorem construction_copies_bindings (m : map TreeRecord) :
  (exists t, Tree_ctor m = t /\ records t = m) /\
  to_list (records (Tree_ctor m)) = to_list m /\
  size (records (Tree_ctor m)) = size m /\
  (forall k r, bound (records (Tree_ctor m)) k r <-> bound m k r) /\
  (forall k, deref (records (Tree_ctor m)) (record (Tree_ctor m) k)
             = deref m (find m k)).
Proof.
  split; [now exists (Tree_ctor m)|]. cbn [records Tree_ctor].
  repeat split; trivial.
Qed.

(** ** Order and uniqueness of the keys *)

(** C2. Iterating over the bindings of any instance meets the keys in
    strictly increasing lexicographic order.  For a map assembled from a
    list of bindings the keys met are those of the list, and two lists that
    are permutations of each other give the same sequence of keys.  With
    the bindings supplied as a, c, b the iteration is a, b, c. *)
Theorem iteration_in_key_order :
  (forall t : Tree,
     StronglySorted (fun a b => StdString.lex_lt a b = true) (iteration_keys t)) /\
  (forall (l : list (string * TreeRecord)) x,
     In x (iteration_keys (Tree_ctor (of_list l))) <-> In x (keys l)) /\
  (forall l l' : list (string * TreeRecord),
     Permutation l l' ->
     iteration_keys (Tree_ctor (of_list l)) = iteration_keys (Tree_ctor (of_list l'))) /\
  (forall R1 R2 R3 : TreeRecord,
     to_list (records (Tree_ctor (of_list [("a", R1); ("c", R3); ("b", R2)])))
       = [("a", R1); ("b", R2); ("c", R3)] /\
     iteration_keys (Tree_ctor (of_list [("a", R1); ("c", R3); ("b", R2)]))
       = ["a"; "b"; "c"]).
Proof.
  assert (Hmem : forall (l : list (string * TreeRecord)) x,
             In x (iteration_keys (Tree_ctor (of_list l))) <-> In x (keys l)).
  { intros l x. rewrite iteration_keys_nodes. apply of_list_contains. }
  split; [|split; [exact Hmem|split]].
  - intros t. rewrite iteration_keys_nodes.
    apply lex_lt_StronglySorted, keys_StronglySorted.
  - intros l l' Hp. rewrite !iteration_keys_nodes.
    apply StronglySorted_ext; try apply keys_StronglySorted.
    intros x. rewrite <- !iteration_keys_nodes, !Hmem.
    unfold keys. split; apply Permutation_in; apply Permutation_map;
      [exact Hp | now apply Permutation_sym].
  - intros R1 R2 R3. split; reflexivity.
Qed.

(** C3. In every instance each key of the stored bindings occurs exactly
    once.  The map type keeps it so: inserting a binding whose key is
    already present changes nothing, and a map assembled from any list of
    bindings, repeated keys included, has each key once. *)
Theorem keys_unique :
  (forall t : Tree, NoDup (keys (nodes (records t)))) /\
  (forall (t : Tree) k,
     contains (records t) k ->
     count_occ string_dec (keys (nodes (records t))) k = 1) /\
  (forall (m : map TreeRecord) k v,
     contains m k -> nodes (insert m k v) = nodes m) /\
  (forall l : list (string * TreeRecord),
     NoDup (iteration_keys (Tree_ctor (of_list l)))).
Proof.
  split; [intros t; apply keys_NoDup|]. split; [|split].
  - intros t k Hk. apply NoDup_count_occ'; [apply keys_NoDup | exact Hk].
  - intros m k v Hk. cbn [insert nodes].
    apply insert_nodes_existing; [exact Hk | apply nodes_sorted].
  - intros l. rewrite iteration_keys_nodes. apply keys_NoDup.
Qed.

End TreeClass.

(* ===================================================================== *)
(** * Concrete instances                                                  *)
(* ===================================================================== *)

Section Instances.

Local Open Scope string_scope.

(** Records stand as numbers here. *)
Definition one_binding : map nat := of_list [("x", 7)].

Definition three_bindings : map nat := of_list [("a", 1); ("c", 3); ("b", 2)].

(** Spec scenario 2: with the single binding x, looking up x finds it and
    looking up y does not. *)
Example record_single_binding :
  deref (records (Tree_ctor one_binding)) (record (Tree_ctor one_binding) "x")
    = Some ("x", 7) /\
  record (Tree_ctor one_binding) "y" = cend (records (Tree_ctor one_binding)).
Proof. split; reflexivity. Qed.

(** Keys are compared byte by byte as unsigned values, a proper prefix
    coming first. *)
Example less_samples :
  StdString.less "a" "ab" = true /\
  StdString.less "ab" "b" = true /\
  StdString.less "Z" "a" = true /\
  StdString.less "a" (String (ascii_of_nat 200) "") = true /\
  StdString.less "" "a" = true /\
  StdString.less "a" "a" = false.
Proof. repeat split. Qed.

(** A repeated key keeps the binding inserted first. *)
Example of_list_repeated_key :
  nodes (of_list [("k", 1); ("j", 2); ("k", 3)]) = [("j", 2); ("k", 1)].
Proof. reflexivity. Qed.

Lemma record_lookup_correct_witness :
  (bound one_binding "x" 7 /\
   deref (records (Tree_ctor one_binding)) (record (Tree_ctor one_binding) "x")
     = Some ("x", 7)) /\
  (~ contains one_binding "y" /\
   record (Tree_ctor one_binding) "y" = cend (records (Tree_ctor one_binding))).
Proof.
  assert (Hx : bound one_binding "x" 7) by (left; reflexivity).
  assert (Hy : ~ contains one_binding "y").
  { intros [H|[]]. discriminate H. }
  split; split.
  - exact Hx.
  - exact (proj1 (@record_lookup_correct nat one_binding "x") 7 Hx).
  - exact Hy.
  - exact (proj1 (proj2 (@record_lookup_correct nat one_binding "y") Hy)).
Defined.

Lemma iteration_in_key_order_witness :
  Permutation [("a", 1); ("c", 3); ("b", 2)] [("b", 2); ("a", 1); ("c", 3)] /\
  iteration_keys (Tree_ctor (of_list [("a", 1); ("c", 3); ("b", 2)]))
    = iteration_keys (Tree_ctor (of_list [("b", 2); ("a", 1); ("c", 3)])).
Proof.
  assert (Hp : Permutation [("a", 1); ("c", 3); ("b", 2)]
                           [("b", 2); ("a", 1); ("c", 3)]).
  { apply perm_trans with [("a", 1); ("b", 2); ("c", 3)].
    - apply perm_skip. apply perm_swap.
    - apply perm_swap. }
  split; [exact Hp|].
  exact (proj1 (proj2 (proj2 (iteration_in_key_order nat))) _ _ Hp).
Defined.

Lemma keys_unique_witness :
  (contains (records (Tree_ctor three_bindings)) "b" /\
   count_occ string_dec (keys (nodes (records (Tree_ctor three_bindings)))) "b" = 1) /\
  (contains one_binding "x" /\
   nodes (insert one_binding "x" 9) = nodes one_binding).
Proof.
  assert (Hb : contains (records (Tree_ctor three_bindings)) "b").
  { right. left. reflexivity. }
  assert (Hx : contains one_binding "x") by (left; reflexivity).
  split; split.
  - exact Hb.
  - exact (proj1 (proj2 (keys_unique nat)) _ _ Hb).
  - exact Hx.
  - exact (proj1 (proj2 (proj2 (keys_unique nat))) _ _ 9 Hx).
Defined.

End Instances.

(* ===================================================================== *)
(** * Iteration and lookup together                                       *)
(* ===================================================================== *)

(** [records] is a public member, so a user of [Tree] can walk it and call
    [record] on the same instance.  This part relates the two. *)

Section TreeUse.

Variable TreeRecord : Type.

(** The bindings of a list as a linear search sees them: the first pair
    with the key.  The reference against which lookups in a tree assembled
    from the list are checked. *)
Fixpoint first_binding (l : list (string * TreeRecord)) (k : string)
  : option TreeRecord :=
  match l with
  | [] => None
  | (k', v) :: l' => if String.eqb k' k then Some v else first_binding l' k
  end.

(** ** Positions and keys *)

(** In a strictly increasing sequence, a key at an earlier position is
    smaller. *)
Lemma StronglySorted_nth_lt ks : forall i j a b,
  StronglySorted StdString.lt ks ->
  nth_error ks i = Some a -> nth_error ks j = Some b -> i < j ->
  StdString.lt a b.
Proof.
  induction ks as [|k ks IH]; intros i j a b Hs Hi Hj Hij.
  - destruct i; discriminate.
  - apply StronglySorted_inv in Hs. destruct Hs as [Hs Hall].
    destruct j as [|j]; [lia|]. cbn [nth_error] in Hj.
    destruct i as [|i].
    + cbn in Hi. injection Hi as ->. rewrite Forall_forall in Hall.
      apply Hall. now apply nth_error_In with j.
    + cbn [nth_error] in Hi. apply (IH i j a b); trivial. lia.
Qed.

Lemma deref_key (m : map TreeRecord) it k v :
  deref m it = Some (k, v) -> nth_error (keys (nodes m)) it = Some k.
Proof.
  unfold deref, keys. intros H. exact (map_nth_error fst it (nodes m) H).
Qed.

(** Two positions of a map holding the same key are the same position. *)
Lemma deref_same_key (m : map TreeRecord) i j k v w :
  deref m i = Some (k, v) -> deref m j = Some (k, w) -> i = j.
Proof.
  intros Hi Hj. apply deref_key in Hi. apply deref_key in Hj.
  pose proof (keys_StronglySorted m) as Hs.
  destruct (Nat.lt_trichotomy i j) as [Hlt|[E|Hlt]]; [|exact E|]; exfalso.
  - exact (StdString.lt_irrefl (StronglySorted_nth_lt Hs Hi Hj Hlt)).
  - exact (StdString.lt_irrefl (StronglySorted_nth_lt Hs Hj Hi Hlt)).
Qed.

(** ** Node sequences are determined by their members *)

Lemma nodes_ext (l1 : list (string * TreeRecord)) : forall l2,
  sortedb (keys l1) = true -> sortedb (keys l2) = true ->
  (forall p, In p l1 <-> In p l2) -> l1 = l2.
Proof.
  induction l1 as [|[a va] l1 IH]; intros [|[b vb] l2] H1 H2 Hmem.
  - reflexivity.
  - exfalso. apply (proj2 (Hmem (b, vb))). now left.
  - exfalso. apply (proj1 (Hmem (a, va))). now left.
  - assert (Ha : forall p, In p l1 -> StdString.lt a (fst p)).
    { intros p Hp. apply sortedb_head_lt with (keys l1); [exact H1|].
      now apply in_map. }
    assert (Hb : forall p, In p l2 -> StdString.lt b (fst p)).
    { intros p Hp. apply sortedb_head_lt with (keys l2); [exact H2|].
      now apply in_map. }
    assert (E : (a, va) = (b, vb)).
    { destruct (proj1 (Hmem (a, va)) (or_introl eq_refl)) as [E|Hin];
        [now symmetry|].
      destruct (proj2 (Hmem (b, vb)) (or_introl eq_refl)) as [E|Hin'];
        [exact E|].
      exfalso. apply (@StdString.lt_irrefl a).
      apply StdString.lt_trans with b; [exact (Ha _ Hin') | exact (Hb _ Hin)]. }
    injection E as <- <-. f_equal.
    apply IH; [now apply sortedb_tail with a | now apply sortedb_tail with a|].
    intros p. split; intros Hp.
    + destruct (proj1 (Hmem p) (or_intror Hp)) as [E|Hin]; [|exact Hin].
      subst p. exfalso. exact (StdString.lt_irrefl (Ha _ Hp)).
    + destruct (proj2 (Hmem p) (or_intror Hp)) as [E|Hin]; [|exact Hin].
      subst p. exfalso. exact (StdString.lt_irrefl (Hb _ Hp)).
Qed.

(** Maps with the same node sequence are the same map. *)
Lemma map_eq (m1 m2 : map TreeRecord) : nodes m1 = nodes m2 -> m1 = m2.
Proof.
  destruct m1 as [l1 H1], m2 as [l2 H2]. cbn [nodes]. intros <-.
  f_equal. apply Eqdep_dec.UIP_dec. apply Bool.bool_dec.
Qed.

(** ** Insertion of a key that is not there yet *)

Lemma insert_nodes_fresh k (v : TreeRecord) l p :
  ~ In k (keys l) ->
  (In p (insert_nodes k v l) <-> p = (k, v) \/ In p l).
Proof.
  induction l as [|[k1 v1] l IH]; intros Hk; cbn [insert_nodes].
  - cbn. intuition.
  - destruct (StdString.less k k1) eqn:E1; [cbn; intuition|].
    destruct (StdString.less k1 k) eqn:E2.
    + cbn [In]. rewrite IH; [intuition|].
      intros Hin. apply Hk. now right.
    + exfalso. apply Hk. left. cbn [fst].
      symmetry. now apply StdString.less_total.
Qed.

Lemma bound_insert (m : map TreeRecord) k v x w :
  bound (insert m k v) x w <->
  bound m x w \/ (~ contains m k /\ x = k /\ w = v).
Proof.
  unfold bound, contains. cbn [insert nodes].
  destruct (in_dec string_dec k (keys (nodes m))) as [Hin|Hnot].
  - rewrite insert_nodes_existing; [|exact Hin|apply nodes_sorted]. intuition.
  - rewrite insert_nodes_fresh by exact Hnot. split.
    + intros [E|H]; [|now left]. injection E as -> ->. now right.
    + intros [H|(_ & -> & ->)]; [now right | now left].
Qed.

Lemma contains_insert (m : map TreeRecord) k v x :
  contains (insert m k v) x <-> x = k \/ contains m x.
Proof. unfold contains. cbn [insert nodes]. apply insert_nodes_keys. Qed.

Lemma bound_fold_insert l : forall (m : map TreeRecord) k v,
  bound (fold_left (fun m p => insert m (fst p) (snd p)) l m) k v <->
  bound m k v \/ (~ contains m k /\ first_binding l k = Some v).
Proof.
  induction l as [|[k1 v1] l IH]; intros m k v; cbn [fold_left first_binding].
  - split; [now left | intros [H|[_ H]]; [exact H | discriminate]].
  - rewrite IH, bound_insert, contains_insert. cbn [fst snd].
    destruct (String.eqb_spec k1 k) as [->|Hne].
    + split.
      * intros [[H|(Hn & _ & ->)]|[Hn H]]; [now left | now right |].
        exfalso. apply Hn. now left.
      * intros [H|[Hn E]]; [now left; left|]. injection E as ->.
        left. right. now repeat split.
    + split.
      * intros [[H|(_ & E & _)]|[Hn H]]; [now left | now elim Hne |].
        right. split; [|exact H]. intros Hc. apply Hn. now right.
      * intros [H|[Hn H]]; [now left; left|].
        right. split; [|exact H]. intros [E|Hc]; [now elim Hne | now elim Hn].
Qed.

Lemma bound_of_list (l : list (string * TreeRecord)) k v :
  bound (of_list l) k v <-> first_binding l k = Some v.
Proof.
  unfold of_list. rewrite bound_fold_insert. split.
  - intros [[]|[_ H]]. exact H.
  - intros H. right. split; [intros []|exact H].
Qed.

(** ** What a user of [Tree] can rely on *)

(** X1. Every binding met while iterating over [t.records] is found again
    by [record] under its own key, at the very position where the iteration
    met it. *)
Theorem record_of_visited_key (t : Tree TreeRecord) it k r :
  deref (records t) it = Some (k, r) -> record t k = it.
Proof.
  intros Hit. pose proof (find_bound _ _ _ (deref_bound _ _ Hit)) as Hf.
  unfold record. exact (deref_same_key _ _ _ Hf Hit).
Qed.

(** X2. [record] tells present keys apart: the iterator returned for a
    present key is returned for no other key. *)
Theorem record_injective (t : Tree TreeRecord) k1 k2 :
  k1 <> k2 ->
  record t k1 <> cend (records t) ->
  record t k1 <> record t k2.
Proof.
  unfold record. intros Hk Hne E. apply Hk.
  destruct (find_hit _ _ Hne) as [v1 H1].
  assert (Hne2 : find (records t) k2 <> cend (records t)) by now rewrite <- E.
  destruct (find_hit _ _ Hne2) as [v2 H2].
  rewrite E, H2 in H1. now injection H1.
Qed.

(** X3. The iterators [record] returns for present keys are ordered like
    the keys: one key is smaller than another exactly when its iterator
    comes earlier. *)
Theorem record_monotone (t : Tree TreeRecord) k1 k2 :
  contains (records t) k1 -> contains (records t) k2 ->
  (StdString.lt k1 k2 <-> record t k1 < record t k2).
Proof.
  intros H1 H2. apply contains_bound in H1, H2.
  destruct H1 as [v1 H1], H2 as [v2 H2].
  apply find_bound in H1, H2. unfold record.
  pose proof (deref_key _ _ H1) as K1. pose proof (deref_key _ _ H2) as K2.
  pose proof (keys_StronglySorted (records t)) as Hs.
  split; [|exact (StronglySorted_nth_lt Hs K1 K2)].
  intros Hlt.
  destruct (Nat.lt_trichotomy (find (records t) k1) (find (records t) k2))
    as [Hij|[E|Hji]]; [exact Hij| |]; exfalso.
  - rewrite E, H2 in H1. injection H1 as -> _.
    exact (StdString.lt_irrefl Hlt).
  - apply (@StdString.lt_irrefl k1).
    apply StdString.lt_trans with k2; [exact Hlt|].
    exact (StronglySorted_nth_lt Hs K2 K1 Hji).
Qed.

(** X4. An instance is determined by its lookups: two instances on which
    [record] dereferences to the same thing for every key are equal. *)
Theorem tree_extensional (t1 t2 : Tree TreeRecord) :
  (forall k, deref (records t1) (record t1 k) = deref (records t2) (record t2 k)) ->
  t1 = t2.
Proof.
  destruct t1 as [m1], t2 as [m2]. unfold record. cbn [records]. intros H.
  f_equal. apply map_eq. apply nodes_ext; try apply nodes_sorted.
  intros [k v]. split; intros Hb.
  - apply deref_bound with (find m2 k). rewrite <- H. now apply find_bound.
  - apply deref_bound with (find m1 k). rewrite H. now apply find_bound.
Qed.

(** X5. On an instance constructed from a map assembled from a list of
    bindings, [record k] dereferences to the first binding of [k] in the
    list, and to nothing when the list has none: a later binding of a key
    never replaces an earlier one. *)
Theorem record_of_list_first_binding (l : list (string * TreeRecord)) k :
  deref (records (Tree_ctor (of_list l))) (record (Tree_ctor (of_list l)) k)
  = option_map (pair k) (first_binding l k).
Proof.
  unfold record. cbn [records Tree_ctor].
  destruct (first_binding l k) as [v|] eqn:E; cbn [option_map].
  - apply find_bound. now apply bound_of_list.
  - rewrite find_not_contains; [apply deref_cend|].
    intros Hc. apply contains_bound in Hc. destruct Hc as [v Hv].
    apply bound_of_list in Hv. congruence.
Qed.

End TreeUse.

Section UseInstances.

Local Open Scope string_scope.

Lemma record_of_visited_key_witness :
  deref (records (Tree_ctor three_bindings)) 1 = Some ("b", 2) /\
  record (Tree_ctor three_bindings) "b" = 1.
Proof.
  assert (H : deref (records (Tree_ctor three_bindings)) 1 = Some ("b", 2))
    by reflexivity.
  split; [exact H|].
  exact (@record_of_visited_key nat (Tree_ctor three_bindings) 1 "b" 2 H).
Defined.

Lemma record_injective_witness :
  ("c" <> "zz" /\
   record (Tree_ctor three_bindings) "c" <> cend (records (Tree_ctor three_bindings))) /\
  record (Tree_ctor three_bindings) "c" <> record (Tree_ctor three_bindings) "zz".
Proof.
  assert (Hk : "c" <> "zz") by (intros H; discriminate H).
  assert (Hne : record (Tree_ctor three_bindings) "c"
                <> cend (records (Tree_ctor three_bindings)))
    by (intros H; discriminate H).
  split; [split; [exact Hk | exact Hne]|].
  exact (@record_injective nat (Tree_ctor three_bindings) "c" "zz" Hk Hne).
Defined.

Lemma record_monotone_witness :
  (contains (records (Tree_ctor three_bindings)) "a" /\
   contains (records (Tree_ctor three_bindings)) "c") /\
  (StdString.lt "a" "c" <->
   record (Tree_ctor three_bindings) "a" < record (Tree_ctor three_bindings) "c").
Proof.
  assert (Ha : contains (records (Tree_ctor three_bindings)) "a")
    by (left; reflexivity).
  assert (Hc : contains (records (Tree_ctor three_bindings)) "c")
    by (right; right; left; reflexivity).
  split; [split; [exact Ha | exact Hc]|].
  exact (@record_monotone nat (Tree_ctor three_bindings) "a" "c" Ha Hc).
Defined.

Lemma tree_extensional_witness :
  (forall k,
     deref (records (Tree_ctor one_binding)) (record (Tree_ctor one_binding) k)
     = deref (records (Tree_ctor (insert one_binding "x" 9)))
             (record (Tree_ctor (insert one_binding "x" 9)) k)) /\
  Tree_ctor one_binding = Tree_ctor (insert one_binding "x" 9).
Proof.
  assert (H : forall k,
     deref (records (Tree_ctor one_binding)) (record (Tree_ctor one_binding) k)
     = deref (records (Tree_ctor (insert one_binding "x" 9)))
             (record (Tree_ctor (insert one_binding "x" 9)) k))
    by (intros k; reflexivity).
  split; [exact H|].
  exact (@tree_extensional nat (Tree_ctor one_binding)
           (Tree_ctor (insert one_binding "x" 9)) H).
Defined.

End UseInstances.
